(** * Asset permissions: validity, bulk filters and resolution

    A shallow embedding of [apps/perms/models/asset_permission.py].

    - Datetimes are [Z] (microseconds on the UTC time line); primary keys
      (UUIDs) are [N].
    - [timezone.now()] is an effect.  Every call consumes one reading of the
      ambient clock, so the code runs in a small state monad over the
      [World] (the clock signal and the number of readings taken so far).
    - A [QuerySet] is the list of rows it evaluates to; [filter] keeps the
      rows that satisfy the lookup.
    - Tables of the other apps ([User], [UserGroup], [Asset], [Node],
      [Account]) are read from a [Store]. *)

From stdpp Require Import base list gmap sets strings sorting.

Local Open Scope Z_scope.

(** ** The ambient clock *)

Record World := { clock : nat → Z; reads : nat }.

Definition M (A : Type) : Type := World → A * World.

#[global] Instance M_ret : MRet M := λ A (x : A) w, (x, w).
#[global] Instance M_bind : MBind M := λ A B (k : A → M B) (c : M A) w,
  let (x, w') := c w in k x w'.

(** [timezone.now()]: the next reading of the clock. *)
Definition timezone_now : M Z := λ w,
  (clock w (reads w), {| clock := clock w; reads := S (reads w) |}).

(** The instant the next call of [timezone.now()] will return. *)
Definition next_now (w : World) : Z := clock w (reads w).

(** A clock that shows [t] at every reading. *)
Definition frozen (t : Z) : World := {| clock := λ _, t; reads := 0 |}.

(** ** Rows of the collaborating apps *)

Module User.
Record t := { id : N; groups : list N }.
#[global] Instance eq_dec : EqDecision t.
Proof. solve_decision. Defined.
End User.

Module UserGroup.
Record t := { id : N }.
End UserGroup.

Module Asset.
Record t := { id : N; name : string }.
#[global] Instance eq_dec : EqDecision t.
Proof. solve_decision. Defined.
End Asset.

Module Node.
Record t := { id : N; key : string }.
End Node.

Module Account.
(** [asset_id] is the column behind the [asset] foreign key. *)
Record t := { id : N; asset_id : N; name : string; username : string }.
#[global] Instance eq_dec : EqDecision t.
Proof. solve_decision. Defined.
End Account.

(** Modelled from the spec: the wildcard alias [ALL] of the account
    specification.  [Account.AliasAccount] is declared in [assets.models];
    the comment on the [accounts] field spells its value [@ALL]. *)
Definition AliasAccount_ALL : string := "@ALL".

(** The database snapshot the model methods read, with the one class method
    of [Node] they call. *)
Record Store := {
  User_objects : list User.t;
  UserGroup_objects : list UserGroup.t;
  Asset_objects : list Asset.t;
  Node_objects : list Node.t;
  Account_objects : list Account.t;
  get_nodes_all_asset_ids_by_keys : list string → list N
}.

(** ** The model *)

Module AssetPermission.
Record t := {
  id : N;
  name : string;
  users : list N;          (* rows of the many-to-many tables: *)
  user_groups : list N;    (* the primary keys on the far side  *)
  assets : list N;
  nodes : list N;
  accounts : list string;  (* JSON array of account names *)
  actions : Z;
  date_start : Z;
  date_expired : Z;
  comment : string;
  is_active : bool;
  from_ticket : bool;
  date_created : Z;
  created_by : string
}.
End AssetPermission.

Import AssetPermission.

(** [related.all()]: the rows of the target table linked through a
    many-to-many field. *)
Definition m2m_all {R} (pk : R → N) (table : list R) (through : list N) : list R :=
  filter (λ r, pk r ∈ through) table.

(** *** AssetPermissionQuerySet *)

Definition active (self : list AssetPermission.t) : list AssetPermission.t :=
  filter (λ p, is_active p = true) self.

Definition valid (self : list AssetPermission.t) : M (list AssetPermission.t) :=
  t1 ← timezone_now;
  let qs := filter (λ p, date_start p < t1) (active self) in
  t2 ← timezone_now;
  mret (filter (λ p, date_expired p > t2) qs).

Definition inactive (self : list AssetPermission.t) : list AssetPermission.t :=
  filter (λ p, is_active p = false) self.

Definition invalid (self : list AssetPermission.t) : M (list AssetPermission.t) :=
  now ← timezone_now;
  mret (filter (λ p, is_active p = false ∨ date_start p > now ∨ date_expired p < now) self).

(** The [contains] lookup of a JSON field holding an array: with an array on
    the right every element of it must occur in the field, with a scalar on
    the right the scalar must occur in the field. *)
Definition json_contains_array (field query : list string) : Prop := query ⊆ field.
Definition json_contains_scalar (field : list string) (query : string) : Prop :=
  query ∈ field.

#[global] Instance json_contains_array_dec field query :
  Decision (json_contains_array field query).
Proof. unfold json_contains_array. apply _. Defined.
#[global] Instance json_contains_scalar_dec field query :
  Decision (json_contains_scalar field query).
Proof. unfold json_contains_scalar. apply _. Defined.

Definition filter_by_accounts (self : list AssetPermission.t) (accounts : list string)
  : list AssetPermission.t :=
  filter (λ p, json_contains_array (AssetPermission.accounts p) accounts
               ∨ json_contains_scalar (AssetPermission.accounts p) AliasAccount_ALL) self.

(** *** AssetPermission *)

Definition is_expired (self : AssetPermission.t) : M bool :=
  now ← timezone_now;
  mret (if bool_decide (date_expired self > now ∧ now > date_start self)
        then false else true).

Definition is_valid (self : AssetPermission.t) : M bool :=
  expired ← is_expired self;
  mret (if negb expired && is_active self then true else false).

(** [qs.distinct()]: one copy of every row. *)
Definition distinct {R} `{EqDecision R} (qs : list R) : list R := remove_dups qs.

(** Modelled from the spec: [UnionQuerySet] of [common.db.models], which is
    not part of this file.  The expander "returns U1 ∪ U2 (set union; a user
    directly and indirectly referenced appears once)": the rows of both
    querysets, every row once. *)
Definition UnionQuerySet {R} `{EqDecision R} (qs1 qs2 : list R) : list R :=
  remove_dups (qs1 ++ qs2).

(** [User.objects.filter(groups__id__in=group_ids)]: the join of the user
    table with the membership table, one row per matching membership. *)
Definition filter_groups_id_in (table : list User.t) (group_ids : list N) : list User.t :=
  u ← table; _ ← filter (λ g, g ∈ group_ids) (User.groups u); [u].

Definition get_all_users (db : Store) (self : AssetPermission.t) : list User.t :=
  let user_ids := User.id <$> m2m_all User.id (User_objects db) (users self) in
  let group_ids :=
    UserGroup.id <$> m2m_all UserGroup.id (UserGroup_objects db) (user_groups self) in
  let qs1 := distinct (filter (λ u, User.id u ∈ user_ids) (User_objects db)) in
  let qs2 := distinct (filter_groups_id_in (User_objects db) group_ids) in
  UnionQuerySet qs1 qs2.

(** [s.update(iterable)] on a Python set: the elements are added one by one. *)
Definition set_update (s : gset N) (iterable : list N) : gset N :=
  foldl (λ acc x, {[x]} ∪ acc) s iterable.

(** The identities [self.assets.all().values_list('id', flat=True)] yields. *)
Definition direct_asset_ids (db : Store) (self : AssetPermission.t) : list N :=
  Asset.id <$> m2m_all Asset.id (Asset_objects db) (assets self).

(** The keys [self.nodes.all().values_list('key', flat=True)] yields. *)
Definition nodes_keys (db : Store) (self : AssetPermission.t) : list string :=
  Node.key <$> m2m_all Node.id (Node_objects db) (nodes self).

Definition get_all_assets (db : Store) (self : AssetPermission.t) (flat : bool)
  : if flat then gset N else list Asset.t :=
  let asset_ids : gset N := list_to_set (direct_asset_ids db self) in
  let nodes_asset_ids := get_nodes_all_asset_ids_by_keys db (nodes_keys db self) in
  let asset_ids := set_update asset_ids nodes_asset_ids in
  match flat return (if flat then gset N else list Asset.t) with
  | true => asset_ids
  | false => filter (λ a, Asset.id a ∈ asset_ids) (Asset_objects db)
  end.

(** *** ORDER BY *)

(** Lexicographic comparison of the three sort columns; text columns compare
    by code point. *)
Definition lex (c : comparison) (rest : comparison) : comparison :=
  match c with Eq => rest | _ => c end.

Definition key_compare (k1 k2 : string * string * string) : comparison :=
  let '(a1, b1, c1) := k1 in
  let '(a2, b2, c2) := k2 in
  lex (String.compare a1 a2) (lex (String.compare b1 b2) (String.compare c1 c2)).

Definition key_le (k1 k2 : string * string * string) : Prop := key_compare k1 k2 ≠ Gt.

(** Ordering by [asset__name] follows the foreign key: the account rows are
    joined with the asset table on [asset_id], one joined row per asset row
    with that identity.  The key is not nullable, so the join is an inner
    join: an account whose asset has no row is not in the result. *)
Definition join_asset (table : list Asset.t) (rows : list Account.t)
  : list (Account.t * Asset.t) :=
  a ← rows; r ← filter (λ r, Asset.id r = Account.asset_id a) table; [(a, r)].

(** The columns of [order_by('asset__name', 'name', 'username')], read off a
    joined row. *)
Definition order_key (row : Account.t * Asset.t) : string * string * string :=
  (Asset.name row.2, Account.name row.1, Account.username row.1).

Definition joined_le (r1 r2 : Account.t * Asset.t) : Prop :=
  key_le (order_key r1) (order_key r2).

#[global] Instance joined_le_dec r1 r2 : Decision (joined_le r1 r2).
Proof. unfold joined_le, key_le. apply _. Defined.

Fixpoint insert_ordered (r : Account.t * Asset.t) (rows : list (Account.t * Asset.t))
  : list (Account.t * Asset.t) :=
  match rows with
  | [] => [r]
  | r' :: rows' =>
      if decide (joined_le r r') then r :: rows else r' :: insert_ordered r rows'
  end.

Definition order_by (rows : list (Account.t * Asset.t)) : list (Account.t * Asset.t) :=
  foldr insert_ordered [] rows.

(** A [Q] object over the account table. *)
Definition Q : Type := Account.t → bool.

Definition get_all_accounts (db : Store) (self : AssetPermission.t) (flat : bool)
  : if flat then list N else list Account.t :=
  let asset_ids : gset N := get_all_assets db self true in
  let q : Q := λ a, bool_decide (Account.asset_id a ∈ asset_ids) in
  let q : Q :=
    if bool_decide (AliasAccount_ALL ∉ accounts self)
    then λ a, q a && bool_decide (Account.username a ∈ accounts self)
    else q in
  let accounts :=
    (order_by (join_asset (Asset_objects db)
                 (filter (λ a, q a) (Account_objects db)))).*1 in
  match flat return (if flat then list N else list Account.t) with
  | false => accounts
  | true => Account.id <$> accounts
  end.

(** ** What the resolution methods read from a permission *)

(** Identities of the users referenced directly, as [get_all_users] reads
    them with [self.users.all().values_list('id', flat=True)]. *)
Definition referenced_user_ids (db : Store) (self : AssetPermission.t) : list N :=
  User.id <$> m2m_all User.id (User_objects db) (users self).

(** Identities of the referenced groups, read the same way. *)
Definition referenced_group_ids (db : Store) (self : AssetPermission.t) : list N :=
  UserGroup.id <$> m2m_all UserGroup.id (UserGroup_objects db) (user_groups self).

(** [u] is a member of one of the groups [group_ids]. *)
Definition member_of_any (u : User.t) (group_ids : list N) : Prop :=
  ∃ gid, gid ∈ User.groups u ∧ gid ∈ group_ids.

(** The account specification is the wildcard when the alias occurs in the
    configured list. *)
Definition is_wildcard (self : AssetPermission.t) : Prop :=
  AliasAccount_ALL ∈ accounts self.

(** The pure core of the validity window: [t] lies strictly inside it. *)
Definition in_window (self : AssetPermission.t) (t : Z) : Prop :=
  date_start self < t < date_expired self.

(** The filter [get_all_accounts] builds, as a predicate on account rows. *)
Definition account_matches (db : Store) (g : AssetPermission.t) (a : Account.t) : Prop :=
  Account.asset_id a ∈ (get_all_assets db g true : gset N)
  ∧ (is_wildcard g ∨ Account.username a ∈ accounts g).

#[global] Instance account_matches_dec db g a : Decision (account_matches db g a).
Proof. unfold account_matches, is_wildcard. apply _. Defined.

(** ** Sample rows *)

Module Sample.

Definition permission (pk : N) (spec : list string) (start expired : Z)
    (on : bool) : AssetPermission.t :=
  {| id := pk; name := "ops"; users := [1%N; 2%N]; user_groups := [10%N];
     assets := [100%N]; nodes := [7%N]; accounts := spec; actions := 1;
     date_start := start; date_expired := expired; comment := "";
     is_active := on; from_ticket := false; date_created := 0;
     created_by := "admin" |}.

Definition web : Asset.t := {| Asset.id := 100; Asset.name := "web" |}.
Definition dbs : Asset.t := {| Asset.id := 101; Asset.name := "dbs" |}.

Definition account (pk : N) (on : Asset.t) (n u : string) : Account.t :=
  {| Account.id := pk; Account.asset_id := Asset.id on; Account.name := n;
     Account.username := u |}.

(** Users 1 and 3 are members of group 10; node 7 (key 1:1) holds both
    assets. *)
Definition store : Store :=
  {| User_objects :=
       [ {| User.id := 1; User.groups := [10%N; 11%N] |};
         {| User.id := 2; User.groups := [] |};
         {| User.id := 3; User.groups := [10%N] |};
         {| User.id := 4; User.groups := [12%N] |} ];
     UserGroup_objects := [ {| UserGroup.id := 10 |}; {| UserGroup.id := 11 |} ];
     Asset_objects := [web; dbs];
     Node_objects := [ {| Node.id := 7; Node.key := "1:1" |} ];
     Account_objects :=
       [ account 1000 web "r" "root"; account 1001 dbs "r" "root";
         account 1002 dbs "a" "admin"; account 1003 web "g" "guest" ];
     get_nodes_all_asset_ids_by_keys :=
       λ keys, if decide ("1:1" ∈ keys) then [101%N; 100%N] else [] |}.

(** A clock that advances by five between two readings. *)
Definition ticking : World := {| clock := λ k, 5 + 5 * Z.of_nat k; reads := 0 |}.

End Sample.

(** A permission given by its references, open from 0 to 10. *)
Definition sample_grant (us gs ast ns : list N) (spec : list string) (on : bool)
  : AssetPermission.t :=
  {| id := 9; name := "refs"; users := us; user_groups := gs; assets := ast;
     nodes := ns; accounts := spec; actions := 1; date_start := 0;
     date_expired := 10; comment := ""; is_active := on; from_ticket := false;
     date_created := 0; created_by := "admin" |}.

(** The sample store with one more account, on an asset that has no row. *)
Definition orphan_store : Store :=
  {| User_objects := User_objects Sample.store;
     UserGroup_objects := UserGroup_objects Sample.store;
     Asset_objects := Asset_objects Sample.store;
     Node_objects := Node_objects Sample.store;
     Account_objects :=
       {| Account.id := 1009; Account.asset_id := 555; Account.name := "o";
          Account.username := "root" |} :: Account_objects Sample.store;
     get_nodes_all_asset_ids_by_keys :=
       λ keys, if decide ("1:1" ∈ keys) then [101%N; 100%N; 555%N] else [] |}.

(** * Properties *)

(** ** The clock monad *)

Lemma timezone_now_run (w : World) :
  timezone_now w = (next_now w, {| clock := clock w; reads := S (reads w) |}).
Proof. reflexivity. Qed.

Lemma frozen_next_now (t : Z) : next_now (frozen t) = t.
Proof. reflexivity. Qed.

(** ** The order of the sort columns *)

Section string_order.

Lemma ascii_compare_refl (a : Ascii.ascii) : Ascii.compare a a = Eq.
Proof. unfold Ascii.compare. apply N.compare_refl. Qed.

Lemma ascii_compare_lt_trans (a b c : Ascii.ascii) :
  Ascii.compare a b = Lt → Ascii.compare b c = Lt → Ascii.compare a c = Lt.
Proof.
  unfold Ascii.compare. rewrite !N.compare_lt_iff. apply N.lt_trans.
Qed.

Lemma string_compare_refl (s : string) : String.compare s s = Eq.
Proof.
  induction s as [|a s IH]; simpl; [done|].
  by rewrite ascii_compare_refl.
Qed.

Lemma string_compare_lt_trans (x y z : string) :
  String.compare x y = Lt → String.compare y z = Lt → String.compare x z = Lt.
Proof.
  revert y z. induction x as [|a x IH]; intros [|b y] [|c z]; simpl; try done.
  destruct (Ascii.compare a b) eqn:Hab, (Ascii.compare b c) eqn:Hbc; try done.
  - apply Ascii.compare_eq_iff in Hab, Hbc. subst.
    rewrite ascii_compare_refl. apply IH.
  - apply Ascii.compare_eq_iff in Hab. subst. by rewrite Hbc.
  - apply Ascii.compare_eq_iff in Hbc. subst. by rewrite Hab.
  - by rewrite (ascii_compare_lt_trans a b c).
Qed.

Lemma string_compare_gt_lt (x y : string) :
  String.compare x y = Gt → String.compare y x = Lt.
Proof. rewrite (String.compare_antisym y x). by intros ->. Qed.

Lemma string_compare_lt_gt (x y : string) :
  String.compare x y = Lt → String.compare y x = Gt.
Proof. rewrite (String.compare_antisym y x). by intros ->. Qed.

End string_order.

Lemma key_compare_refl k : key_compare k k = Eq.
Proof. destruct k as [[a b] c]. simpl. by rewrite !string_compare_refl. Qed.

Lemma key_compare_gt_lt k1 k2 : key_compare k1 k2 = Gt → key_compare k2 k1 = Lt.
Proof.
  destruct k1 as [[a1 b1] c1], k2 as [[a2 b2] c2]. simpl.
  rewrite (String.compare_antisym a2 a1), (String.compare_antisym b2 b1),
    (String.compare_antisym c2 c1).
  by destruct (String.compare a1 a2), (String.compare b1 b2), (String.compare c1 c2).
Qed.

Lemma key_compare_lt_trans k1 k2 k3 :
  key_compare k1 k2 = Lt → key_compare k2 k3 = Lt → key_compare k1 k3 = Lt.
Proof.
  destruct k1 as [[a1 b1] c1], k2 as [[a2 b2] c2], k3 as [[a3 b3] c3]. simpl.
  intros H1 H2.
  destruct (String.compare a1 a2) eqn:Ha12, (String.compare a2 a3) eqn:Ha23;
    simpl in *; try done.
  - apply String.compare_eq_iff in Ha12, Ha23. subst.
    rewrite string_compare_refl. simpl.
    destruct (String.compare b1 b2) eqn:Hb12, (String.compare b2 b3) eqn:Hb23;
      simpl in *; try done.
    + apply String.compare_eq_iff in Hb12, Hb23. subst.
      rewrite string_compare_refl. simpl. by eapply string_compare_lt_trans.
    + apply String.compare_eq_iff in Hb12. subst. by rewrite Hb23.
    + apply String.compare_eq_iff in Hb23. subst. by rewrite Hb12.
    + by rewrite (string_compare_lt_trans b1 b2 b3).
  - apply String.compare_eq_iff in Ha12. subst. by rewrite Ha23.
  - apply String.compare_eq_iff in Ha23. subst. by rewrite Ha12.
  - by rewrite (string_compare_lt_trans a1 a2 a3).
Qed.

Lemma key_compare_eq k1 k2 : key_compare k1 k2 = Eq → k1 = k2.
Proof.
  destruct k1 as [[a1 b1] c1], k2 as [[a2 b2] c2]. simpl.
  destruct (String.compare a1 a2) eqn:Ha; simpl; try done.
  destruct (String.compare b1 b2) eqn:Hb; simpl; try done.
  intros Hc. apply String.compare_eq_iff in Ha, Hb, Hc. by subst.
Qed.

#[global] Instance key_le_total : Total key_le.
Proof.
  intros k1 k2. unfold key_le.
  destruct (key_compare k1 k2) eqn:H; [by left|by left|right].
  by rewrite (key_compare_gt_lt _ _ H).
Qed.

#[global] Instance key_le_trans : Transitive key_le.
Proof.
  intros k1 k2 k3. unfold key_le. intros H12 H23.
  destruct (key_compare k1 k2) eqn:E12; [| |done].
  - apply key_compare_eq in E12. by subst.
  - destruct (key_compare k2 k3) eqn:E23; [| |done].
    + apply key_compare_eq in E23. subst. by rewrite E12.
    + by rewrite (key_compare_lt_trans k1 k2 k3).
Qed.

#[global] Instance joined_le_total : Total joined_le.
Proof. intros a b. apply key_le_total. Qed.

#[global] Instance joined_le_trans : Transitive joined_le.
Proof. intros a b c. apply key_le_trans. Qed.

(** ** ORDER BY sorts and keeps the rows *)

Lemma insert_ordered_Permutation a rows : insert_ordered a rows ≡ₚ a :: rows.
Proof.
  induction rows as [|b rows IH]; simpl; [done|].
  case_decide; [done|]. rewrite IH. apply Permutation_swap.
Qed.

Lemma insert_ordered_sorted a rows :
  StronglySorted joined_le rows → StronglySorted joined_le (insert_ordered a rows).
Proof.
  induction 1 as [|b rows Hs IH Hb]; simpl.
  - repeat constructor.
  - case_decide as Hab.
    + constructor; [by constructor|].
      constructor; [done|].
      eapply Forall_impl; [exact Hb|]. intros c Hbc. by transitivity b.
    + constructor; [done|].
      rewrite insert_ordered_Permutation. constructor; [|done].
      by destruct (total joined_le a b).
Qed.

Lemma order_by_Permutation rows : order_by rows ≡ₚ rows.
Proof.
  induction rows as [|a rows IH]; simpl; [done|].
  by rewrite insert_ordered_Permutation, IH.
Qed.

Lemma order_by_sorted rows : StronglySorted joined_le (order_by rows).
Proof.
  induction rows as [|a rows IH]; simpl; [constructor|].
  by apply insert_ordered_sorted.
Qed.

Lemma elem_of_order_by a rows : a ∈ order_by rows ↔ a ∈ rows.
Proof. by rewrite order_by_Permutation. Qed.

(** ** The validity evaluators *)

Lemma is_expired_run (g : AssetPermission.t) (w : World) :
  is_expired g w =
    (negb (bool_decide (in_window g (next_now w))),
     {| clock := clock w; reads := S (reads w) |}).
Proof.
  unfold is_expired, in_window, mbind, M_bind, mret, M_ret. simpl.
  f_equal. fold (next_now w).
  repeat case_bool_decide; simpl; try done; lia.
Qed.

Lemma is_valid_run (g : AssetPermission.t) (w : World) :
  is_valid g w =
    (bool_decide (in_window g (next_now w)) && is_active g,
     {| clock := clock w; reads := S (reads w) |}).
Proof.
  unfold is_valid, mbind, M_bind, mret, M_ret.
  rewrite is_expired_run. f_equal.
  rewrite negb_involutive. by destruct (_ && _).
Qed.

Lemma is_valid_at_date_start (g : AssetPermission.t) (w : World) :
  next_now w = date_start g → fst (is_valid g w) = false.
Proof.
  intros Hnow. rewrite is_valid_run. simpl.
  rewrite bool_decide_eq_false_2; [done|]. unfold in_window. lia.
Qed.

Lemma is_valid_at_date_expired (g : AssetPermission.t) (w : World) :
  next_now w = date_expired g → fst (is_valid g w) = false.
Proof.
  intros Hnow. rewrite is_valid_run. simpl.
  rewrite bool_decide_eq_false_2; [done|]. unfold in_window. lia.
Qed.

(** C1: for every grant and every instant [t] the clock shows, [is_valid] is
    true exactly when the grant is active and [date_start < t < date_expired],
    both bounds strict. *)
Theorem is_valid_iff (g : AssetPermission.t) (w : World) :
  fst (is_valid g w) = true ↔
  is_active g = true ∧ date_start g < next_now w ∧ next_now w < date_expired g.
Proof.
  rewrite is_valid_run. simpl.
  rewrite andb_true_iff, bool_decide_eq_true. unfold in_window. tauto.
Qed.

(** ** The bulk filters *)

Lemma valid_run (qs : list AssetPermission.t) (w : World) :
  valid qs w =
    (filter (λ p, date_expired p > clock w (S (reads w)))
       (filter (λ p, date_start p < clock w (reads w)) (active qs)),
     {| clock := clock w; reads := S (S (reads w)) |}).
Proof. reflexivity. Qed.

Lemma invalid_run (qs : list AssetPermission.t) (w : World) :
  invalid qs w =
    (filter (λ p, is_active p = false ∨ date_start p > next_now w
                  ∨ date_expired p < next_now w) qs,
     {| clock := clock w; reads := S (reads w) |}).
Proof. reflexivity. Qed.

Lemma elem_of_valid p qs w :
  p ∈ fst (valid qs w) ↔
  p ∈ qs ∧ is_active p = true ∧ date_start p < clock w (reads w)
  ∧ clock w (S (reads w)) < date_expired p.
Proof.
  rewrite valid_run. simpl. unfold active.
  rewrite !list_elem_of_filter. intuition lia.
Qed.

Lemma elem_of_invalid p qs w :
  p ∈ fst (invalid qs w) ↔
  p ∈ qs ∧ (is_active p = false ∨ next_now w < date_start p
            ∨ date_expired p < next_now w).
Proof.
  rewrite invalid_run. simpl.
  rewrite list_elem_of_filter. intuition lia.
Qed.

(** With the clock held at [t], no grant is both valid and invalid. *)
Lemma valid_invalid_disjoint qs t p :
  p ∈ fst (valid qs (frozen t)) → p ∈ fst (invalid qs (frozen t)) → False.
Proof.
  rewrite elem_of_valid, elem_of_invalid. simpl. unfold next_now. simpl.
  intros (_ & Hact & Hs & He) (_ & [Hin | [H | H]]); [congruence|lia|lia].
Qed.

(** With the clock held at [t], the grants in neither set are the active
    ones that start or expire exactly at [t] (and would otherwise be valid
    or are out of their window on the other side). *)
Lemma valid_invalid_gap qs t p :
  p ∈ qs →
  ((p ∉ fst (valid qs (frozen t))) ∧ (p ∉ fst (invalid qs (frozen t)))) ↔
  is_active p = true ∧ date_start p ≤ t ≤ date_expired p
  ∧ (date_start p = t ∨ date_expired p = t).
Proof.
  intros Hin. rewrite elem_of_valid, elem_of_invalid. simpl.
  unfold next_now. simpl. destruct (is_active p); intuition (try done; try lia).
Qed.

(** C2: evaluated at the failing input.  An active grant whose window
    starts exactly at the instant of the query is returned neither by
    [valid] nor by [invalid], so the two do not cover the collection. *)
Theorem invalid_misses_boundary :
  let now := 5 in
  let g := Sample.permission 1 [] 5 10 true in
  (g ∉ fst (valid [g] (frozen now))) ∧ (g ∉ fst (invalid [g] (frozen now))).
Proof.
  simpl. apply valid_invalid_gap; [apply list_elem_of_here|].
  simpl. lia.
Qed.

Lemma elem_of_filter_by_accounts p qs names :
  p ∈ filter_by_accounts qs names ↔
  p ∈ qs ∧ (names ⊆ accounts p ∨ is_wildcard p).
Proof. unfold filter_by_accounts. rewrite list_elem_of_filter. tauto. Qed.

(** C4: [filter_by_accounts S] keeps exactly the grants whose account list
    contains every name of [S], or contains the wildcard; it keeps them in
    place, dropping the others. *)
Theorem filter_by_accounts_spec (qs : list AssetPermission.t) (S : list string) :
  (∀ p, p ∈ filter_by_accounts qs S ↔
        p ∈ qs ∧ ((∀ n, n ∈ S → n ∈ accounts p) ∨ is_wildcard p))
  ∧ filter_by_accounts qs S `sublist_of` qs.
Proof.
  split.
  - intros p. apply elem_of_filter_by_accounts.
  - apply sublist_filter.
Qed.

(** C8: the two bulk filters commute. *)
Theorem active_filter_by_accounts_comm (qs : list AssetPermission.t) (X : list string) :
  filter_by_accounts (active qs) X = active (filter_by_accounts qs X).
Proof.
  unfold filter_by_accounts, active.
  induction qs as [|p qs IH]; [done|].
  rewrite !filter_cons.
  repeat (case_decide; rewrite ?filter_cons; simpl); try done; by rewrite IH.
Qed.

(** ** One instant per query *)

(** Membership in a literal list of rows. *)
Ltac in_rows :=
  repeat first [apply list_elem_of_here | apply list_elem_of_further].

(** With the same instant at both readings [valid] judges every grant
    against that instant. *)
Lemma valid_clock_still (qs : list AssetPermission.t) (w : World) :
  clock w (S (reads w)) = next_now w →
  fst (valid qs w) =
    filter (λ p, is_active p = true ∧ in_window p (next_now w)) qs.
Proof.
  intros Hstill. rewrite valid_run. simpl. unfold active.
  rewrite !list_filter_filter. apply list_filter_iff.
  intros p. rewrite Hstill. unfold in_window, next_now. intuition lia.
Qed.

(** C6: evaluated at the failing input.  The claim asks that one bulk
    validity query compare every grant against a single captured instant,
    as [invalid] does, and that the evaluators take the instant as an input.
    [valid] reads the clock once per chained filter: on a clock that shows 5
    and then 10 it keeps grant 2 and drops grants 1 and 3, a collection that
    no single instant explains (keeping grant 2 puts the instant inside
    (0, 20), dropping grant 1 puts it at 8 or later, dropping grant 3 at 7 or
    earlier).  And [is_valid], which takes no instant, answers differently on
    the same grant when called twice in a row. *)
Lemma valid_reads_clock_twice :
  let qs := [Sample.permission 1 [] 0 8 true; Sample.permission 2 [] 0 20 true;
             Sample.permission 3 [] 7 20 true] in
  (¬ ∃ t, fst (valid qs Sample.ticking) =
            filter (λ p, is_active p = true ∧ in_window p t) qs)
  ∧ (let g := Sample.permission 1 [] 0 8 true in
     let first := is_valid g Sample.ticking in
     let second := is_valid g (snd first) in
     fst first = true ∧ fst second = false).
Proof.
  intros qs. split; [|cbv zeta; by rewrite !is_valid_run].
  intros [t Ht].
  assert (H2 : Sample.permission 2 [] 0 20 true ∈ fst (valid qs Sample.ticking)).
  { apply elem_of_valid. simpl. split; [in_rows|lia]. }
  assert (H1 : Sample.permission 1 [] 0 8 true ∉ fst (valid qs Sample.ticking)).
  { rewrite elem_of_valid. simpl. lia. }
  assert (H3 : Sample.permission 3 [] 7 20 true ∉ fst (valid qs Sample.ticking)).
  { rewrite elem_of_valid. simpl. lia. }
  rewrite Ht in H1, H2, H3.
  rewrite list_elem_of_filter in H1, H2, H3. unfold in_window in *. simpl in *.
  assert (Sample.permission 1 [] 0 8 true ∈ qs) by in_rows.
  assert (Sample.permission 3 [] 7 20 true ∈ qs) by in_rows.
  assert (¬ 0 < t < 8) by tauto.
  assert (¬ 7 < t < 20) by tauto.
  lia.
Qed.

(** ** Asset set resolution *)

Lemma elem_of_set_update (x : N) (s : gset N) (iterable : list N) :
  x ∈ set_update s iterable ↔ x ∈ s ∨ x ∈ iterable.
Proof.
  unfold set_update. revert s.
  induction iterable as [|y l IH]; intros s; simpl.
  - rewrite elem_of_nil. tauto.
  - rewrite IH, elem_of_union, elem_of_singleton, elem_of_cons. tauto.
Qed.

Lemma set_update_union (s : gset N) (iterable : list N) :
  set_update s iterable = s ∪ list_to_set iterable.
Proof.
  apply set_eq. intros x.
  rewrite elem_of_set_update, elem_of_union, elem_of_list_to_set. tauto.
Qed.

Lemma get_all_assets_flat (db : Store) (g : AssetPermission.t) :
  (get_all_assets db g true : gset N) =
    set_update (list_to_set (direct_asset_ids db g))
      (get_nodes_all_asset_ids_by_keys db (nodes_keys db g)).
Proof. reflexivity. Qed.

(** When records are wanted, they are the rows of the asset table whose
    identity is in the flat result. *)
Lemma get_all_assets_hydrated (db : Store) (g : AssetPermission.t) (a : Asset.t) :
  a ∈ (get_all_assets db g false : list Asset.t) ↔
  a ∈ Asset_objects db ∧ Asset.id a ∈ (get_all_assets db g true : gset N).
Proof. simpl. rewrite list_elem_of_filter. tauto. Qed.

(** ** Tables with a primary key *)

Section primary_key.
Context {R : Type} (pk : R → N).

(** Rows of a table with distinct keys are told apart by their key. *)
Lemma pk_inj (table : list R) (x y : R) :
  NoDup (pk <$> table) → x ∈ table → y ∈ table → pk x = pk y → x = y.
Proof.
  induction table as [|r table IH]; simpl; [by rewrite elem_of_nil|].
  rewrite NoDup_cons, !elem_of_cons.
  intros [Hr Hnd] [->|Hx] [->|Hy] Heq; try done.
  - exfalso. apply Hr. rewrite Heq. by apply list_elem_of_fmap_2.
  - exfalso. apply Hr. rewrite <- Heq. by apply list_elem_of_fmap_2.
  - by apply IH.
Qed.

(** A duplicate-free selection of rows has duplicate-free keys. *)
Lemma NoDup_pk_selection (table rows : list R) :
  NoDup (pk <$> table) → NoDup rows → rows ⊆ table → NoDup (pk <$> rows).
Proof.
  intros Hpk Hnd Hsub. apply NoDup_fmap_2_strong; [|done].
  intros x y Hx Hy. apply (pk_inj table); auto.
Qed.

(** The rows linked through a many-to-many field do not depend on the
    order of the links. *)
Lemma m2m_all_Permutation (table : list R) (through through' : list N) :
  through ≡ₚ through' → m2m_all pk table through = m2m_all pk table through'.
Proof.
  intros Hp. unfold m2m_all. apply list_filter_iff.
  intros r. by rewrite Hp.
Qed.

Lemma elem_of_m2m_all (table : list R) (through : list N) (r : R) :
  r ∈ m2m_all pk table through ↔ r ∈ table ∧ pk r ∈ through.
Proof. unfold m2m_all. rewrite list_elem_of_filter. tauto. Qed.

End primary_key.

(** ** Asset set resolution, by the references of the grant *)

Lemma elem_of_direct_asset_ids (db : Store) (g : AssetPermission.t) (i : N) :
  i ∈ direct_asset_ids db g ↔ i ∈ assets g ∧ i ∈ Asset.id <$> Asset_objects db.
Proof.
  unfold direct_asset_ids. rewrite !list_elem_of_fmap. split.
  - intros (a & -> & Ha). apply elem_of_m2m_all in Ha as [? ?]. eauto.
  - intros (Hi & a & -> & Ha). exists a. split; [done|].
    by apply elem_of_m2m_all.
Qed.

Lemma elem_of_get_all_assets_flat (db : Store) (g : AssetPermission.t) (i : N) :
  i ∈ (get_all_assets db g true : gset N) ↔
  i ∈ direct_asset_ids db g
  ∨ i ∈ get_nodes_all_asset_ids_by_keys db (nodes_keys db g).
Proof.
  rewrite get_all_assets_flat, elem_of_set_update, elem_of_list_to_set. tauto.
Qed.

(** C7: in flat mode [get_all_assets] is the union, as a set, of the asset
    identities the grant references directly (those with a row in the asset
    table, through which they are read) and the identities the node store
    returns for the keys of the referenced nodes; every directly referenced
    identity with a row is in it. *)
Theorem get_all_assets_flat_union (db : Store) (g : AssetPermission.t) :
  let ids : gset N := get_all_assets db g true in
  let keys := Node.key <$> filter (λ n, Node.id n ∈ nodes g) (Node_objects db) in
  (∀ i, i ∈ ids ↔
        (i ∈ assets g ∧ i ∈ Asset.id <$> Asset_objects db)
        ∨ i ∈ get_nodes_all_asset_ids_by_keys db keys)
  ∧ ids = list_to_set (filter (λ i, i ∈ Asset.id <$> Asset_objects db) (assets g))
          ∪ list_to_set (get_nodes_all_asset_ids_by_keys db keys)
  ∧ (∀ i, i ∈ assets g → i ∈ Asset.id <$> Asset_objects db → i ∈ ids)
  ∧ NoDup (elements ids).
Proof.
  intros ids keys.
  assert (Hmem : ∀ i, i ∈ ids ↔
                      (i ∈ assets g ∧ i ∈ Asset.id <$> Asset_objects db)
                      ∨ i ∈ get_nodes_all_asset_ids_by_keys db keys).
  { intros i. unfold ids.
    by rewrite elem_of_get_all_assets_flat, elem_of_direct_asset_ids. }
  split; [done|]. split; [|split].
  - apply set_eq. intros i.
    rewrite Hmem, elem_of_union, !elem_of_list_to_set, list_elem_of_filter.
    tauto.
  - intros i Hi Hrow. apply Hmem. by left.
  - apply NoDup_elements.
Qed.

(** ** Principal expansion *)

Lemma elem_of_filter_groups_id_in (table : list User.t) (group_ids : list N) u :
  u ∈ filter_groups_id_in table group_ids ↔ u ∈ table ∧ member_of_any u group_ids.
Proof.
  unfold filter_groups_id_in, member_of_any. rewrite list_elem_of_bind. split.
  - intros (v & Hu & Hv). apply list_elem_of_bind in Hu as (gid & Hu & Hgid).
    apply list_elem_of_singleton in Hu as ->.
    apply list_elem_of_filter in Hgid as [? ?]. eauto.
  - intros (Hu & gid & Hg & Hgid). exists u. split; [|done].
    apply list_elem_of_bind. exists gid. split; [apply list_elem_of_here|].
    by apply list_elem_of_filter.
Qed.

Lemma elem_of_get_all_users (db : Store) (g : AssetPermission.t) (u : User.t) :
  u ∈ get_all_users db g ↔
  u ∈ User_objects db
  ∧ (User.id u ∈ referenced_user_ids db g
     ∨ member_of_any u (referenced_group_ids db g)).
Proof.
  unfold get_all_users, UnionQuerySet, distinct.
  fold (referenced_user_ids db g). fold (referenced_group_ids db g).
  rewrite elem_of_remove_dups, elem_of_app, !elem_of_remove_dups.
  rewrite list_elem_of_filter, elem_of_filter_groups_id_in. tauto.
Qed.

Lemma NoDup_get_all_users (db : Store) (g : AssetPermission.t) :
  NoDup (get_all_users db g).
Proof. apply NoDup_remove_dups. Qed.

Lemma get_all_users_Permutation (db : Store) (g g' : AssetPermission.t) :
  users g' ≡ₚ users g → user_groups g' ≡ₚ user_groups g →
  get_all_users db g' = get_all_users db g.
Proof.
  intros Hu Hg. unfold get_all_users.
  by rewrite (m2m_all_Permutation User.id _ _ _ Hu),
    (m2m_all_Permutation UserGroup.id _ _ _ Hg).
Qed.

(** A referenced identity is the identity of a row of the user table. *)
Lemma referenced_user_ids_spec (db : Store) (g : AssetPermission.t) (i : N) :
  i ∈ referenced_user_ids db g ↔
  ∃ u, u ∈ User_objects db ∧ User.id u = i ∧ i ∈ users g.
Proof.
  unfold referenced_user_ids. rewrite list_elem_of_fmap. split.
  - intros (u & -> & Hu). apply elem_of_m2m_all in Hu as [? ?]. eauto.
  - intros (u & Hu & <- & Hi). exists u. split; [done|].
    by apply elem_of_m2m_all.
Qed.

Lemma referenced_group_ids_spec (db : Store) (g : AssetPermission.t) (i : N) :
  i ∈ referenced_group_ids db g ↔
  i ∈ user_groups g ∧ i ∈ UserGroup.id <$> UserGroup_objects db.
Proof.
  unfold referenced_group_ids. rewrite !list_elem_of_fmap. split.
  - intros (r & -> & Hr). apply elem_of_m2m_all in Hr as [? ?]. eauto.
  - intros (Hi & r & -> & Hr). exists r. split; [done|].
    by apply elem_of_m2m_all.
Qed.

(** C5: the identities [get_all_users] returns are those the grant references
    directly (the ones with a row in the user table, through which they are
    read) together with those of the members of the groups it references
    (the ones with a row in the group table); no identity is returned twice,
    also when a user is referenced directly and is a member of a referenced
    group; and the result does not depend on the order in which the grant
    lists its users and groups. *)
Theorem get_all_users_union (db : Store) (g : AssetPermission.t) :
  NoDup (User.id <$> User_objects db) →
  let ids := User.id <$> get_all_users db g in
  (∀ i, i ∈ ids ↔
        (i ∈ users g ∧ i ∈ User.id <$> User_objects db)
        ∨ ∃ u gid, u ∈ User_objects db ∧ User.id u = i
                   ∧ gid ∈ User.groups u ∧ gid ∈ user_groups g
                   ∧ gid ∈ UserGroup.id <$> UserGroup_objects db)
  ∧ NoDup ids
  ∧ (∀ g', users g' ≡ₚ users g → user_groups g' ≡ₚ user_groups g →
           get_all_users db g' = get_all_users db g).
Proof.
  intros Hpk ids. split; [|split].
  - intros i. unfold ids. rewrite list_elem_of_fmap. split.
    + intros (u & -> & Hu).
      apply elem_of_get_all_users in Hu as [Hu [H|(gid & Hm & Hg)]].
      * left. apply referenced_user_ids_spec in H as (_ & _ & _ & H).
        split; [done|]. by apply list_elem_of_fmap_2.
      * right. exists u, gid.
        by apply referenced_group_ids_spec in Hg as [? ?].
    + intros [[Hi Hrow] | (u & gid & Hu & <- & Hm & Hg & Hrow)].
      * apply list_elem_of_fmap in Hrow as (u & -> & Hu).
        exists u. split; [done|]. apply elem_of_get_all_users.
        split; [done|]. left. apply referenced_user_ids_spec. eauto.
      * exists u. split; [done|]. apply elem_of_get_all_users.
        split; [done|]. right. exists gid. split; [done|].
        by apply referenced_group_ids_spec.
  - apply (NoDup_pk_selection User.id (User_objects db)); [done| |].
    + apply NoDup_get_all_users.
    + intros u Hu. by apply elem_of_get_all_users in Hu as [? _].
  - intros g'. apply get_all_users_Permutation.
Qed.

Lemma get_all_users_union_witness :
  NoDup (User.id <$> User_objects Sample.store)
  ∧ NoDup (User.id <$> get_all_users Sample.store (Sample.permission 1 [] 0 10 true)).
Proof.
  assert (Hpk : NoDup (User.id <$> User_objects Sample.store)).
  { compute_done. }
  split; [exact Hpk|].
  exact (proj1 (proj2 (get_all_users_union Sample.store
                         (Sample.permission 1 [] 0 10 true) Hpk))).
Defined.

(** ** Account resolution *)

Lemma filter_none {A} (P : A → Prop) `{!∀ x, Decision (P x)} (l : list A) :
  (∀ x, x ∈ l → ¬ P x) → filter P l = [].
Proof.
  induction l as [|x l IH]; intros Hno; [done|].
  rewrite filter_cons_False by (apply Hno, list_elem_of_here).
  apply IH. intros y Hy. apply Hno. by apply list_elem_of_further.
Qed.

(** *** The join with the asset table *)

Lemma elem_of_join_asset (table : list Asset.t) (rows : list Account.t) a r :
  (a, r) ∈ join_asset table rows ↔
  a ∈ rows ∧ r ∈ table ∧ Asset.id r = Account.asset_id a.
Proof.
  unfold join_asset. rewrite list_elem_of_bind. split.
  - intros (a' & Hin & Ha'). apply list_elem_of_bind in Hin as (r' & Hin & Hr').
    apply list_elem_of_singleton in Hin. simplify_eq.
    by apply list_elem_of_filter in Hr' as [? ?].
  - intros (Ha & Hr & Hid). exists a. split; [|done].
    apply list_elem_of_bind. exists r. split; [apply list_elem_of_here|].
    by apply list_elem_of_filter.
Qed.

(** An account survives the join exactly when its asset has a row. *)
Lemma elem_of_join_asset_fst (table : list Asset.t) (rows : list Account.t) a :
  a ∈ (join_asset table rows).*1 ↔
  a ∈ rows ∧ Account.asset_id a ∈ Asset.id <$> table.
Proof.
  rewrite !list_elem_of_fmap. split.
  - intros ([a' r] & -> & Hin). apply elem_of_join_asset in Hin as (? & ? & Hid).
    split; [done|]. exists r. by split.
  - intros (Ha & r & Hid & Hr). exists (a, r). split; [done|].
    by apply elem_of_join_asset.
Qed.

(** In a table with unique keys one row carries a given identity. *)
Lemma filter_pk_singleton (table : list Asset.t) (r : Asset.t) :
  NoDup (Asset.id <$> table) → r ∈ table →
  filter (λ x, Asset.id x = Asset.id r) table = [r].
Proof.
  induction table as [|x table IH]; [by intros _ ?%elem_of_nil|].
  rewrite fmap_cons, NoDup_cons. intros [Hx Hnd] Hin.
  apply elem_of_cons in Hin as [->|Hin].
  - rewrite filter_cons_True by done. f_equal. apply filter_none.
    intros y Hy Heq. apply Hx. rewrite <- Heq. by apply list_elem_of_fmap_2.
  - rewrite filter_cons_False; [by apply IH|].
    intros Heq. apply Hx. rewrite Heq. by apply list_elem_of_fmap_2.
Qed.

(** When the asset table has unique keys and every account row points at a
    row of it, the join pairs every account with its asset and loses none. *)
Lemma join_asset_integrity (table : list Asset.t) (rows : list Account.t) :
  NoDup (Asset.id <$> table) →
  (∀ a, a ∈ rows → Account.asset_id a ∈ Asset.id <$> table) →
  (join_asset table rows).*1 = rows.
Proof.
  intros Hpk. induction rows as [|a rows IH]; intros Hfk; [done|].
  unfold join_asset in *. rewrite bind_cons, fmap_app.
  rewrite IH by (intros b Hb; apply Hfk, list_elem_of_further, Hb).
  assert (Hrow : Account.asset_id a ∈ Asset.id <$> table).
  { apply Hfk, list_elem_of_here. }
  apply list_elem_of_fmap in Hrow as (r & Hid & Hr).
  rewrite Hid, (filter_pk_singleton table r Hpk Hr). done.
Qed.

(** *** The rows returned *)

Lemma get_all_accounts_rows (db : Store) (g : AssetPermission.t) :
  (get_all_accounts db g false : list Account.t) =
    (order_by (join_asset (Asset_objects db)
                 (filter (account_matches db g) (Account_objects db)))).*1.
Proof.
  unfold get_all_accounts. do 3 f_equal. apply list_filter_iff. intros a.
  unfold account_matches, is_wildcard.
  case_bool_decide as Hall.
  - rewrite andb_True, !bool_decide_spec. tauto.
  - rewrite bool_decide_spec. tauto.
Qed.

Lemma get_all_accounts_ids (db : Store) (g : AssetPermission.t) :
  (get_all_accounts db g true : list N) =
    Account.id <$> (get_all_accounts db g false : list Account.t).
Proof. reflexivity. Qed.

Lemma get_all_accounts_wildcard (db : Store) (g : AssetPermission.t) :
  is_wildcard g →
  (get_all_accounts db g false : list Account.t) =
    (order_by (join_asset (Asset_objects db)
       (filter (λ a, Account.asset_id a ∈ (get_all_assets db g true : gset N))
          (Account_objects db)))).*1.
Proof.
  intros Hw. rewrite get_all_accounts_rows. do 3 f_equal.
  apply list_filter_iff. intros a. unfold account_matches. tauto.
Qed.

(** The accounts returned, on any store: the rows of the account table that
    match the filter and whose asset has a row. *)
Lemma elem_of_get_all_accounts (db : Store) (g : AssetPermission.t) (a : Account.t) :
  a ∈ (get_all_accounts db g false : list Account.t) ↔
  a ∈ Account_objects db ∧ account_matches db g a
  ∧ Account.asset_id a ∈ Asset.id <$> Asset_objects db.
Proof.
  rewrite get_all_accounts_rows, order_by_Permutation.
  rewrite elem_of_join_asset_fst, list_elem_of_filter. tauto.
Qed.

(** C3: on a store whose account and asset tables have unique keys and whose
    account rows all point at a row of the asset table, [get_all_accounts]
    returns the rows of the account table whose asset is in the resolved
    asset set and for which the grant holds the wildcard or lists the
    username; every such row once; sorted, with their asset rows, by asset
    name, then account name, then username; in flat mode, the identities of
    those rows in the same order. *)
Theorem get_all_accounts_spec (db : Store) (g : AssetPermission.t) :
  NoDup (Account.id <$> Account_objects db) →
  NoDup (Asset.id <$> Asset_objects db) →
  (∀ a, a ∈ Account_objects db →
        Account.asset_id a ∈ Asset.id <$> Asset_objects db) →
  let rows : list Account.t := get_all_accounts db g false in
  (∀ a, a ∈ rows ↔
        a ∈ Account_objects db
        ∧ Account.asset_id a ∈ (get_all_assets db g true : gset N)
        ∧ (is_wildcard g ∨ Account.username a ∈ accounts g))
  ∧ rows ≡ₚ filter (account_matches db g) (Account_objects db)
  ∧ NoDup rows
  ∧ NoDup (Account.id <$> rows)
  ∧ (∃ joined : list (Account.t * Asset.t),
        rows = joined.*1
        ∧ StronglySorted joined_le joined
        ∧ ∀ a r, (a, r) ∈ joined →
                 r ∈ Asset_objects db ∧ Asset.id r = Account.asset_id a)
  ∧ (get_all_accounts db g true : list N) = Account.id <$> rows.
Proof.
  intros Hpk Hapk Hfk rows.
  assert (Hperm : rows ≡ₚ filter (account_matches db g) (Account_objects db)).
  { unfold rows. rewrite get_all_accounts_rows, order_by_Permutation.
    rewrite join_asset_integrity; [done|done|].
    intros a [_ Ha]%list_elem_of_filter. by apply Hfk. }
  assert (Hnd : NoDup rows).
  { rewrite Hperm. apply NoDup_filter. by apply NoDup_fmap_1 in Hpk. }
  split; [|split; [done|split; [done|split; [|split]]]].
  - intros a. rewrite Hperm, list_elem_of_filter. unfold account_matches. tauto.
  - apply (NoDup_pk_selection Account.id (Account_objects db)); [done|done|].
    intros a. rewrite Hperm, list_elem_of_filter. tauto.
  - eexists. split; [apply get_all_accounts_rows|].
    split; [apply order_by_sorted|].
    intros a r Hin. apply elem_of_order_by, elem_of_join_asset in Hin. tauto.
  - apply get_all_accounts_ids.
Qed.

Lemma sample_store_integrity :
  ∀ a, a ∈ Account_objects Sample.store →
       Account.asset_id a ∈ Asset.id <$> Asset_objects Sample.store.
Proof.
  apply Forall_forall. compute_done.
Defined.

Lemma get_all_accounts_spec_witness :
  NoDup (Account.id <$> Account_objects Sample.store)
  ∧ NoDup (Asset.id <$> Asset_objects Sample.store)
  ∧ (∀ a, a ∈ Account_objects Sample.store →
          Account.asset_id a ∈ Asset.id <$> Asset_objects Sample.store)
  ∧ (get_all_accounts Sample.store
       (Sample.permission 1 ["root"; "admin"] 0 10 true) true : list N)
    = Account.id <$>
        (get_all_accounts Sample.store
           (Sample.permission 1 ["root"; "admin"] 0 10 true) false
           : list Account.t).
Proof.
  assert (Hpk : NoDup (Account.id <$> Account_objects Sample.store)).
  { compute_done. }
  assert (Hapk : NoDup (Asset.id <$> Asset_objects Sample.store)).
  { compute_done. }
  split; [exact Hpk|]. split; [exact Hapk|].
  split; [exact sample_store_integrity|].
  pose proof (get_all_accounts_spec Sample.store
                (Sample.permission 1 ["root"; "admin"] 0 10 true)
                Hpk Hapk sample_store_integrity) as H.
  exact (proj2 (proj2 (proj2 (proj2 (proj2 H))))).
Defined.

(** C9: with an empty resolved asset set, or with an empty account list,
    [get_all_accounts] returns the empty result in both modes. *)
Theorem get_all_accounts_empty (db : Store) (g : AssetPermission.t) :
  (get_all_assets db g true : gset N) = ∅ ∨ accounts g = [] →
  (get_all_accounts db g false : list Account.t) = []
  ∧ (get_all_accounts db g true : list N) = [].
Proof.
  intros Hempty.
  assert (Hrows : (get_all_accounts db g false : list Account.t) = []).
  { rewrite get_all_accounts_rows.
    rewrite filter_none; [done|].
    intros a _ [Hasset Hspec]. destruct Hempty as [He|He].
    - rewrite He in Hasset. by apply not_elem_of_empty in Hasset.
    - unfold is_wildcard in Hspec. rewrite He in Hspec.
      destruct Hspec as [H|H]; by apply elem_of_nil in H. }
  split; [done|]. by rewrite get_all_accounts_ids, Hrows.
Qed.

Lemma get_all_accounts_empty_witness :
  accounts (Sample.permission 1 [] 0 10 true) = []
  ∧ (get_all_accounts Sample.store (Sample.permission 1 [] 0 10 true) true
       : list N) = [].
Proof.
  split; [reflexivity|].
  exact (proj2 (get_all_accounts_empty Sample.store
                  (Sample.permission 1 [] 0 10 true) (or_intror eq_refl))).
Defined.

(** C10: a grant whose account list holds the wildcard anywhere resolves to
    the same result, in both modes, as a grant with the same asset set whose
    list is the wildcard alone, the explicit names being ignored: the rows of
    the account table whose asset is in the resolved set and has a row.
    When every account row points at a row of the asset table, these are all
    the accounts on the resolved assets. *)
Theorem wildcard_anywhere (db : Store) (g g' : AssetPermission.t) (flat : bool) :
  is_wildcard g →
  accounts g' = [AliasAccount_ALL] →
  (get_all_assets db g' true : gset N) = get_all_assets db g true →
  get_all_accounts db g flat = get_all_accounts db g' flat
  ∧ (∀ a, a ∈ (get_all_accounts db g false : list Account.t) ↔
          a ∈ Account_objects db
          ∧ Account.asset_id a ∈ (get_all_assets db g true : gset N)
          ∧ Account.asset_id a ∈ Asset.id <$> Asset_objects db)
  ∧ ((∀ a, a ∈ Account_objects db →
           Account.asset_id a ∈ Asset.id <$> Asset_objects db) →
     ∀ a, a ∈ (get_all_accounts db g false : list Account.t) ↔
          a ∈ Account_objects db
          ∧ Account.asset_id a ∈ (get_all_assets db g true : gset N)).
Proof.
  intros Hw Hpure Hassets.
  assert (Hw' : is_wildcard g').
  { unfold is_wildcard. rewrite Hpure. apply list_elem_of_here. }
  assert (Hrows : (get_all_accounts db g false : list Account.t)
                  = get_all_accounts db g' false).
  { rewrite !get_all_accounts_wildcard by done. by rewrite Hassets. }
  assert (Hmem : ∀ a, a ∈ (get_all_accounts db g false : list Account.t) ↔
                      a ∈ Account_objects db
                      ∧ Account.asset_id a ∈ (get_all_assets db g true : gset N)
                      ∧ Account.asset_id a ∈ Asset.id <$> Asset_objects db).
  { intros a. rewrite elem_of_get_all_accounts. unfold account_matches. tauto. }
  split; [|split; [done|]].
  - destruct flat; [|done]. by rewrite !get_all_accounts_ids, Hrows.
  - intros Hfk a. rewrite Hmem. specialize (Hfk a). tauto.
Qed.

Lemma wildcard_anywhere_witness :
  let g := Sample.permission 1 ["root"; "@ALL"] 0 10 true in
  let g' := Sample.permission 2 ["@ALL"] 0 10 true in
  is_wildcard g
  ∧ accounts g' = [AliasAccount_ALL]
  ∧ (get_all_accounts Sample.store g true : list N)
    = get_all_accounts Sample.store g' true
  ∧ (∀ a, a ∈ (get_all_accounts Sample.store g false : list Account.t) ↔
          a ∈ Account_objects Sample.store
          ∧ Account.asset_id a ∈ (get_all_assets Sample.store g true : gset N)).
Proof.
  intros g g'.
  assert (Hw : is_wildcard g).
  { unfold is_wildcard. simpl. in_rows. }
  split; [exact Hw|]. split; [reflexivity|].
  pose proof (wildcard_anywhere Sample.store g g' true Hw eq_refl eq_refl) as H.
  split; [exact (proj1 H)|].
  exact (proj2 (proj2 H) sample_store_integrity).
Defined.

(** ** Scenarios on the sample store *)

(** A window of ten either side of [t = 100]: valid at [t], expired at
    [t + 20], and not valid once deactivated. *)
Example scenario_window :
  fst (is_valid (Sample.permission 1 [] 90 110 true) (frozen 100)) = true
  ∧ fst (is_valid (Sample.permission 1 [] 90 110 true) (frozen 120)) = false
  ∧ fst (is_valid (Sample.permission 1 [] 90 110 false) (frozen 100)) = false.
Proof. by rewrite !is_valid_run. Qed.

(** User 1 is referenced directly and is a member of the referenced group 10;
    it is returned once, with the direct user 2 and the member 3. *)
Example scenario_users :
  User.id <$> get_all_users Sample.store (Sample.permission 1 [] 0 10 true)
  = [2%N; 1%N; 3%N].
Proof. vm_compute. reflexivity. Qed.

(** Asset 100 is referenced directly and again through node 7. *)
Example scenario_assets :
  elements (get_all_assets Sample.store (Sample.permission 1 [] 0 10 true) true
              : gset N)
  = [100%N; 101%N].
Proof. vm_compute. reflexivity. Qed.

(** An explicit list keeps the listed usernames only; rows come out by asset
    name, then account name. *)
Example scenario_accounts :
  get_all_accounts Sample.store (Sample.permission 1 ["root"; "admin"] 0 10 true) true
  = [1002%N; 1001%N; 1000%N].
Proof. vm_compute. reflexivity. Qed.

Example scenario_accounts_wildcard :
  get_all_accounts Sample.store (Sample.permission 1 ["root"; "@ALL"] 0 10 true) true
  = [1002%N; 1001%N; 1003%N; 1000%N].
Proof. vm_compute. reflexivity. Qed.

(** Grants 2 and 3 start, respectively expire, at the instant of the query. *)
Example scenario_bulk :
  let qs := [Sample.permission 1 [] 0 10 true; Sample.permission 2 [] 5 10 true;
             Sample.permission 3 [] 0 5 true; Sample.permission 4 [] 0 10 false] in
  id <$> fst (valid qs (frozen 5)) = [1%N]
  ∧ id <$> fst (invalid qs (frozen 5)) = [4%N].
Proof. vm_compute. done. Qed.

(** * Further properties *)

(** ** Bulk filters *)

(** X1: every grant is returned by exactly one of [active] and [inactive]:
    together they hold the rows of the collection, each as often as the
    collection does, and no grant is in both. *)
Theorem active_inactive_partition (qs : list AssetPermission.t) :
  active qs ++ inactive qs ≡ₚ qs
  ∧ (∀ p, ¬ (p ∈ active qs ∧ p ∈ inactive qs)).
Proof.
  split.
  - unfold active, inactive. induction qs as [|p qs IH]; [done|].
    rewrite !filter_cons. destruct (is_active p) eqn:Hp; simpl.
    + by rewrite IH.
    + by rewrite <- Permutation_middle, IH.
  - intros p. unfold active, inactive. rewrite !list_elem_of_filter.
    intros [[H1 _] [H2 _]]. congruence.
Qed.

(** X2: whatever the clock shows, [valid] returns active grants only, in
    the order of the collection. *)
Theorem valid_sublist_active (qs : list AssetPermission.t) (w : World) :
  fst (valid qs w) `sublist_of` active qs ∧ active qs `sublist_of` qs.
Proof.
  rewrite valid_run. simpl. split.
  - etrans; apply sublist_filter.
  - apply sublist_filter.
Qed.

(** X3: whatever the clock shows, [invalid] returns every inactive grant. *)
Theorem inactive_sublist_invalid (qs : list AssetPermission.t) (w : World) :
  inactive qs `sublist_of` fst (invalid qs w).
Proof.
  rewrite invalid_run. simpl. unfold inactive.
  rewrite <- (list_filter_filter_l (λ p, is_active p = false)
    (λ p, is_active p = false ∨ date_start p > next_now w
          ∨ date_expired p < next_now w) qs) by tauto.
  apply sublist_filter.
Qed.

(** X4: on a clock that does not run backwards between the two readings of
    one [valid] query, a grant is returned exactly when it is in the
    collection and [is_valid] holds for it at both readings. *)
Theorem valid_is_valid_at_both_readings
    (qs : list AssetPermission.t) (w : World) (p : AssetPermission.t) :
  clock w (reads w) ≤ clock w (S (reads w)) →
  p ∈ fst (valid qs w) ↔
  p ∈ qs ∧ fst (is_valid p w) = true
  ∧ fst (is_valid p (snd (timezone_now w))) = true.
Proof.
  intros Hmono. rewrite elem_of_valid, !is_valid_run. simpl.
  rewrite !andb_true_iff, !bool_decide_eq_true.
  unfold in_window, next_now. simpl. intuition lia.
Qed.

Lemma valid_is_valid_at_both_readings_witness :
  let g := Sample.permission 2 [] 0 20 true in
  clock Sample.ticking (reads Sample.ticking)
    ≤ clock Sample.ticking (S (reads Sample.ticking))
  ∧ (g ∈ fst (valid [g] Sample.ticking) ↔
     g ∈ [g] ∧ fst (is_valid g Sample.ticking) = true
     ∧ fst (is_valid g (snd (timezone_now Sample.ticking))) = true).
Proof.
  intros g.
  assert (Hmono : clock Sample.ticking (reads Sample.ticking)
                  ≤ clock Sample.ticking (S (reads Sample.ticking))).
  { simpl. lia. }
  split; [exact Hmono|].
  exact (valid_is_valid_at_both_readings [g] Sample.ticking g Hmono).
Defined.

(** X5: [invalid] never returns a grant that [is_valid] accepts at the same
    reading of the clock. *)
Theorem invalid_not_is_valid
    (qs : list AssetPermission.t) (w : World) (p : AssetPermission.t) :
  p ∈ fst (invalid qs w) → fst (is_valid p w) = false.
Proof.
  rewrite elem_of_invalid, is_valid_run. simpl.
  intros [_ Hp]. apply andb_false_iff.
  destruct Hp as [Hp|Hp]; [by right|left].
  apply bool_decide_eq_false. unfold in_window. lia.
Qed.

Lemma invalid_not_is_valid_witness :
  let g := Sample.permission 3 [] 0 5 true in
  g ∈ fst (invalid [g] (frozen 7)) ∧ fst (is_valid g (frozen 7)) = false.
Proof.
  intros g.
  assert (Hin : g ∈ fst (invalid [g] (frozen 7))).
  { apply elem_of_invalid. split; [in_rows|]. right. right.
    unfold next_now. simpl. lia. }
  split; [exact Hin|].
  exact (invalid_not_is_valid [g] (frozen 7) g Hin).
Defined.

(** X6: with the clock held at one instant no grant is both valid and
    invalid. *)
Theorem valid_not_invalid
    (qs : list AssetPermission.t) (t : Z) (p : AssetPermission.t) :
  p ∈ fst (valid qs (frozen t)) → p ∉ fst (invalid qs (frozen t)).
Proof. intros Hv Hi. by eapply valid_invalid_disjoint. Qed.

Lemma valid_not_invalid_witness :
  let g := Sample.permission 1 [] 0 10 true in
  g ∈ fst (valid [g] (frozen 5)) ∧ g ∉ fst (invalid [g] (frozen 5)).
Proof.
  intros g.
  assert (Hin : g ∈ fst (valid [g] (frozen 5))).
  { apply elem_of_valid. split; [in_rows|]. simpl. lia. }
  split; [exact Hin|].
  exact (valid_not_invalid [g] 5 g Hin).
Defined.

(** X7: with the clock held at [t], a grant that neither starts nor expires
    exactly at [t] is returned by [valid] or by [invalid]. *)
Theorem valid_or_invalid_off_boundary
    (qs : list AssetPermission.t) (t : Z) (p : AssetPermission.t) :
  p ∈ qs → date_start p ≠ t → date_expired p ≠ t →
  p ∈ fst (valid qs (frozen t)) ∨ p ∈ fst (invalid qs (frozen t)).
Proof.
  intros Hin Hs He. rewrite elem_of_valid, elem_of_invalid.
  unfold next_now. simpl.
  destruct (is_active p); [|by right; auto].
  destruct (decide (date_start p < t ∧ t < date_expired p)) as [Hw|Hw].
  - left. tauto.
  - right. split; [done|]. right. lia.
Qed.

Lemma valid_or_invalid_off_boundary_witness :
  let g := Sample.permission 1 [] 0 10 true in
  g ∈ [g] ∧ date_start g ≠ 12 ∧ date_expired g ≠ 12
  ∧ (g ∈ fst (valid [g] (frozen 12)) ∨ g ∈ fst (invalid [g] (frozen 12))).
Proof.
  intros g.
  assert (Hin : g ∈ [g]) by in_rows.
  assert (Hs : date_start g ≠ 12) by (simpl; lia).
  assert (He : date_expired g ≠ 12) by (simpl; lia).
  split; [exact Hin|]. split; [exact Hs|]. split; [exact He|].
  exact (valid_or_invalid_off_boundary [g] 12 g Hin Hs He).
Defined.

(** ** Validity window *)

(** X8: a grant whose window is empty ([date_expired] not after
    [date_start]) is expired at every instant, is never valid, and is never
    returned by [valid] on a clock that does not run backwards. *)
Theorem empty_window_never_valid
    (g : AssetPermission.t) (qs : list AssetPermission.t) (w : World) :
  date_expired g ≤ date_start g →
  clock w (reads w) ≤ clock w (S (reads w)) →
  fst (is_expired g w) = true ∧ fst (is_valid g w) = false
  ∧ g ∉ fst (valid qs w).
Proof.
  intros Hempty Hmono.
  assert (Hout : ¬ in_window g (next_now w)) by (unfold in_window; lia).
  rewrite is_expired_run, is_valid_run, elem_of_valid. simpl.
  rewrite (bool_decide_eq_false_2 _ Hout). simpl.
  split; [done|]. split; [done|]. lia.
Qed.

Lemma empty_window_never_valid_witness :
  let g := Sample.permission 5 [] 10 10 true in
  date_expired g ≤ date_start g
  ∧ clock Sample.ticking (reads Sample.ticking)
      ≤ clock Sample.ticking (S (reads Sample.ticking))
  ∧ fst (is_valid g Sample.ticking) = false.
Proof.
  intros g.
  assert (Hempty : date_expired g ≤ date_start g) by (simpl; lia).
  assert (Hmono : clock Sample.ticking (reads Sample.ticking)
                  ≤ clock Sample.ticking (S (reads Sample.ticking))).
  { simpl. lia. }
  split; [exact Hempty|]. split; [exact Hmono|].
  exact (proj1 (proj2 (empty_window_never_valid g [g] Sample.ticking
                         Hempty Hmono))).
Defined.

Lemma clock_monotone (w : World) (n : nat) :
  (∀ k, clock w k ≤ clock w (S k)) →
  clock w (reads w) ≤ clock w (reads w + n)%nat.
Proof.
  intros Hmono. induction n as [|n IH].
  - by rewrite Nat.add_0_r.
  - rewrite Nat.add_succ_r. etrans; [exact IH|apply Hmono].
Qed.

(** X9: on a clock that never runs backwards, once a reading has reached
    [date_expired] the grant is expired, and not valid, at that reading and
    at every later reading of the same clock. *)
Theorem expired_stays_expired (g : AssetPermission.t) (w : World) (n : nat) :
  (∀ k, clock w k ≤ clock w (S k)) →
  date_expired g ≤ next_now w →
  let later := {| clock := clock w; reads := (reads w + n)%nat |} in
  fst (is_expired g later) = true ∧ fst (is_valid g later) = false.
Proof.
  intros Hmono Hexp later.
  assert (Hout : ¬ in_window g (next_now later)).
  { pose proof (clock_monotone w n Hmono). unfold in_window, next_now in *.
    simpl. lia. }
  rewrite is_expired_run, is_valid_run. simpl.
  by rewrite (bool_decide_eq_false_2 _ Hout).
Qed.

Lemma expired_stays_expired_witness :
  let g := Sample.permission 1 [] 0 10 true in
  let w := {| clock := clock Sample.ticking; reads := 1 |} in
  (∀ k, clock w k ≤ clock w (S k))
  ∧ date_expired g ≤ next_now w
  ∧ fst (is_expired g {| clock := clock w; reads := (reads w + 3)%nat |}) = true.
Proof.
  intros g w.
  assert (Hmono : ∀ k, clock w k ≤ clock w (S k)).
  { intros k. simpl. lia. }
  assert (Hexp : date_expired g ≤ next_now w).
  { unfold next_now. simpl. lia. }
  split; [exact Hmono|]. split; [exact Hexp|].
  exact (proj1 (expired_stays_expired g w 3 Hmono Hexp)).
Defined.

(** X10: the instants at which a grant is valid form an interval: valid at
    two readings, it is valid at every reading between them. *)
Theorem valid_between (g : AssetPermission.t) (w1 w2 w3 : World) :
  fst (is_valid g w1) = true → fst (is_valid g w3) = true →
  next_now w1 ≤ next_now w2 ≤ next_now w3 →
  fst (is_valid g w2) = true.
Proof.
  rewrite !is_valid_run. simpl.
  rewrite !andb_true_iff, !bool_decide_eq_true. unfold in_window.
  intros [H1 Ha] [H3 _] Hbetween. split; [lia|done].
Qed.

Lemma valid_between_witness :
  let g := Sample.permission 1 [] 0 10 true in
  fst (is_valid g (frozen 2)) = true ∧ fst (is_valid g (frozen 8)) = true
  ∧ next_now (frozen 2) ≤ next_now (frozen 5) ≤ next_now (frozen 8)
  ∧ fst (is_valid g (frozen 5)) = true.
Proof.
  intros g.
  assert (H1 : fst (is_valid g (frozen 2)) = true) by reflexivity.
  assert (H3 : fst (is_valid g (frozen 8)) = true) by reflexivity.
  assert (Hb : next_now (frozen 2) ≤ next_now (frozen 5) ≤ next_now (frozen 8)).
  { unfold next_now. simpl. lia. }
  split; [exact H1|]. split; [exact H3|]. split; [exact Hb|].
  exact (valid_between g (frozen 2) (frozen 5) (frozen 8) H1 H3 Hb).
Defined.

(** ** Filtering by account names *)

Lemma filter_all {A} (P : A → Prop) `{!∀ x, Decision (P x)} (l : list A) :
  (∀ x, x ∈ l → P x) → filter P l = l.
Proof.
  induction l as [|x l IH]; intros Hall; [done|].
  rewrite filter_cons_True by (apply Hall, list_elem_of_here).
  f_equal. apply IH. intros y Hy. apply Hall. by apply list_elem_of_further.
Qed.

(** X11: asking for no account name keeps every grant. *)
Theorem filter_by_accounts_nil (qs : list AssetPermission.t) :
  filter_by_accounts qs [] = qs.
Proof.
  unfold filter_by_accounts. apply filter_all.
  intros p _. left. apply list_subseteq_nil.
Qed.

(** X12: filtering by one list of names and then by another is filtering by
    both lists at once. *)
Theorem filter_by_accounts_app (qs : list AssetPermission.t) (n1 n2 : list string) :
  filter_by_accounts (filter_by_accounts qs n1) n2 = filter_by_accounts qs (n1 ++ n2).
Proof.
  unfold filter_by_accounts. rewrite list_filter_filter.
  apply list_filter_iff. intros p.
  unfold json_contains_array, json_contains_scalar.
  assert (Happ : n1 ++ n2 ⊆ accounts p ↔ n1 ⊆ accounts p ∧ n2 ⊆ accounts p).
  { split.
    - intros H. split; intros x Hx; apply H, elem_of_app; auto.
    - intros [H1 H2] x [Hx|Hx]%elem_of_app; auto. }
  rewrite Happ. tauto.
Qed.

(** X13: asking for more names returns fewer grants: when every name of
    [n1] is among [n2], the grants kept for [n2] are among those kept for
    [n1], in the same order.  In particular the order and the repetitions of
    the requested names do not matter. *)
Theorem filter_by_accounts_antitone
    (qs : list AssetPermission.t) (n1 n2 : list string) :
  n1 ⊆ n2 →
  filter_by_accounts qs n2 `sublist_of` filter_by_accounts qs n1
  ∧ (n2 ⊆ n1 → filter_by_accounts qs n2 = filter_by_accounts qs n1).
Proof.
  intros Hsub. unfold filter_by_accounts, json_contains_array. split.
  - rewrite <- (list_filter_filter_l
      (λ p, n2 ⊆ accounts p ∨ json_contains_scalar (accounts p) AliasAccount_ALL)
      (λ p, n1 ⊆ accounts p ∨ json_contains_scalar (accounts p) AliasAccount_ALL) qs).
    + apply sublist_filter.
    + intros p [H|H]; [left|by right]. by etrans.
  - intros Hsup. apply list_filter_iff. intros p.
    split; (intros [H|H]; [left|by right]); by etrans.
Qed.

Lemma filter_by_accounts_antitone_witness :
  let qs := [Sample.permission 1 ["root"; "admin"] 0 10 true;
             Sample.permission 2 ["root"] 0 10 true] in
  ["root"] ⊆ ["admin"; "root"]
  ∧ filter_by_accounts qs ["admin"; "root"] `sublist_of` filter_by_accounts qs ["root"].
Proof.
  intros qs.
  assert (Hsub : ["root"] ⊆ ["admin"; "root"]).
  { intros x Hx. apply list_elem_of_singleton in Hx as ->. in_rows. }
  split; [exact Hsub|].
  exact (proj1 (filter_by_accounts_antitone qs ["root"] ["admin"; "root"] Hsub)).
Defined.

(** X14: the validity filters and the account filter commute, whatever the
    clock shows. *)
Theorem valid_filter_by_accounts_comm
    (qs : list AssetPermission.t) (X : list string) (w : World) :
  fst (valid (filter_by_accounts qs X) w) = filter_by_accounts (fst (valid qs w)) X
  ∧ fst (invalid (filter_by_accounts qs X) w)
    = filter_by_accounts (fst (invalid qs w)) X.
Proof.
  rewrite !valid_run, !invalid_run. simpl.
  unfold filter_by_accounts, active.
  rewrite !list_filter_filter.
  split; apply list_filter_iff; intros p; tauto.
Qed.

(** ** Asset set resolution, with records *)



(** X16: when every identity the node store returns has a row in the asset
    table, the records returned carry exactly the identities of the flat
    result.  Directly referenced identities need no such assumption: they
    are read through the asset table already. *)
Theorem hydrated_assets_complete (db : Store) (g : AssetPermission.t) :
  (∀ i, i ∈ get_nodes_all_asset_ids_by_keys db (nodes_keys db g) →
        i ∈ Asset.id <$> Asset_objects db) →
  list_to_set (Asset.id <$> (get_all_assets db g false : list Asset.t))
  = (get_all_assets db g true : gset N).
Proof.
  intros Hrows. apply set_eq. intros i.
  rewrite elem_of_list_to_set, list_elem_of_fmap. split.
  - intros (a & -> & Ha). by apply get_all_assets_hydrated in Ha as [_ ?].
  - intros Hi.
    assert (Hrow : i ∈ Asset.id <$> Asset_objects db).
    { apply elem_of_get_all_assets_flat in Hi as [Hd|Hn]; [|by apply Hrows].
      by apply elem_of_direct_asset_ids in Hd as [_ ?]. }
    apply list_elem_of_fmap in Hrow as (a & -> & Ha).
    exists a. split; [done|]. by apply get_all_assets_hydrated.
Qed.

Lemma hydrated_assets_complete_witness :
  let g := Sample.permission 1 [] 0 10 true in
  (∀ i, i ∈ get_nodes_all_asset_ids_by_keys Sample.store (nodes_keys Sample.store g) →
        i ∈ Asset.id <$> Asset_objects Sample.store)
  ∧ list_to_set (Asset.id <$> (get_all_assets Sample.store g false : list Asset.t))
    = (get_all_assets Sample.store g true : gset N).
Proof.
  intros g.
  assert (Hrows : ∀ i,
    i ∈ get_nodes_all_asset_ids_by_keys Sample.store (nodes_keys Sample.store g) →
    i ∈ Asset.id <$> Asset_objects Sample.store).
  { intros i Hi. vm_compute in Hi. vm_compute.
    apply elem_of_cons in Hi as [->|Hi]; [in_rows|].
    apply list_elem_of_singleton in Hi as ->. in_rows. }
  split; [exact Hrows|].
  exact (hydrated_assets_complete Sample.store g Hrows).
Defined.

(** X17: a directly referenced identity with no row in the asset table adds
    nothing: an identity is in the flat result only if it has a row or the
    node store returns it. *)
Theorem get_all_assets_dangling (db : Store) (g : AssetPermission.t) (i : N) :
  i ∉ Asset.id <$> Asset_objects db →
  i ∉ get_nodes_all_asset_ids_by_keys db (nodes_keys db g) →
  i ∉ (get_all_assets db g true : gset N).
Proof.
  intros Hrow Hnode Hi.
  apply elem_of_get_all_assets_flat in Hi as [Hd|Hn]; [|done].
  by apply elem_of_direct_asset_ids in Hd as [_ ?].
Qed.

Lemma get_all_assets_dangling_witness :
  let g := sample_grant [] [] [100%N; 999%N] [] [] true in
  (999%N ∉ Asset.id <$> Asset_objects Sample.store)
  ∧ (999%N ∉ get_nodes_all_asset_ids_by_keys Sample.store (nodes_keys Sample.store g))
  ∧ (999%N ∉ (get_all_assets Sample.store g true : gset N)).
Proof.
  intros g.
  assert (Hrow : 999%N ∉ Asset.id <$> Asset_objects Sample.store).
  { compute_done. }
  assert (Hnode : 999%N ∉ get_nodes_all_asset_ids_by_keys Sample.store
                            (nodes_keys Sample.store g)).
  { compute_done. }
  split; [exact Hrow|]. split; [exact Hnode|].
  exact (get_all_assets_dangling Sample.store g 999 Hrow Hnode).
Defined.

(** ** Principal expansion, by the references of the grant *)

(** X18: [get_all_users] returns rows of the user table only; a row is
    returned exactly when the grant references its identity, or references a
    group, present in the group table, of which it is a member.  A reference
    to a group without a row expands to nothing. *)
Theorem get_all_users_by_references
    (db : Store) (g : AssetPermission.t) (u : User.t) :
  u ∈ get_all_users db g ↔
  u ∈ User_objects db
  ∧ (User.id u ∈ users g
     ∨ ∃ gid, gid ∈ User.groups u ∧ gid ∈ user_groups g
              ∧ gid ∈ UserGroup.id <$> UserGroup_objects db).
Proof.
  rewrite elem_of_get_all_users. unfold member_of_any. split.
  - intros [Hu [Hd|(gid & Hm & Hg)]]; (split; [done|]).
    + left. by apply referenced_user_ids_spec in Hd as (_ & _ & _ & ?).
    + right. exists gid. by apply referenced_group_ids_spec in Hg as [? ?].
  - intros [Hu [Hd|(gid & Hm & Hg & Hrow)]]; (split; [done|]).
    + left. apply referenced_user_ids_spec. eauto.
    + right. exists gid. split; [done|]. by apply referenced_group_ids_spec.
Qed.

(** X19: a grant that references no user and no group expands to no user. *)
Theorem get_all_users_no_references (db : Store) (g : AssetPermission.t) :
  users g = [] → user_groups g = [] → get_all_users db g = [].
Proof.
  intros Hu Hg. apply elem_of_nil_inv. intros u Hin.
  apply elem_of_get_all_users in Hin as [_ [Hd|(gid & _ & Hgid)]].
  - apply referenced_user_ids_spec in Hd as (_ & _ & _ & Hd).
    rewrite Hu in Hd. by apply elem_of_nil in Hd.
  - apply referenced_group_ids_spec in Hgid as [Hgid _].
    rewrite Hg in Hgid. by apply elem_of_nil in Hgid.
Qed.

Lemma get_all_users_no_references_witness :
  let g := sample_grant [] [] [100%N] [7%N] [] true in
  users g = [] ∧ user_groups g = [] ∧ get_all_users Sample.store g = [].
Proof.
  intros g. split; [reflexivity|]. split; [reflexivity|].
  exact (get_all_users_no_references Sample.store g eq_refl eq_refl).
Defined.

(** X20: adding user or group references to a grant never removes a user
    from its expansion. *)
Theorem get_all_users_mono (db : Store) (g g' : AssetPermission.t) :
  users g ⊆ users g' → user_groups g ⊆ user_groups g' →
  get_all_users db g ⊆ get_all_users db g'.
Proof.
  intros Hu Hg u. rewrite !elem_of_get_all_users. unfold member_of_any.
  intros [Hin [Hd|(gid & Hm & Hgid)]]; (split; [done|]).
  - left. apply referenced_user_ids_spec in Hd as (v & Hv & Hid & Hd).
    apply referenced_user_ids_spec. exists v. auto.
  - right. exists gid. split; [done|].
    apply referenced_group_ids_spec in Hgid as [Hgid Hrow].
    apply referenced_group_ids_spec. auto.
Qed.

Lemma get_all_users_mono_witness :
  let g := sample_grant [2%N] [] [] [] [] true in
  let g' := sample_grant [4%N; 2%N] [10%N] [] [] [] true in
  users g ⊆ users g' ∧ user_groups g ⊆ user_groups g'
  ∧ get_all_users Sample.store g ⊆ get_all_users Sample.store g'.
Proof.
  intros g g'.
  assert (Hu : users g ⊆ users g').
  { intros x Hx. apply list_elem_of_singleton in Hx as ->. simpl. in_rows. }
  assert (Hg : user_groups g ⊆ user_groups g') by apply list_subseteq_nil.
  split; [exact Hu|]. split; [exact Hg|].
  exact (get_all_users_mono Sample.store g g' Hu Hg).
Defined.

(** ** Resolution and the rest of the grant *)

(** X21: adding direct asset references to a grant, its node references
    unchanged, never removes an identity from the flat asset set. *)
Theorem get_all_assets_mono (db : Store) (g g' : AssetPermission.t) :
  assets g ⊆ assets g' → nodes g' = nodes g →
  (get_all_assets db g true : gset N) ⊆ get_all_assets db g' true.
Proof.
  intros Ha Hn. apply elem_of_subseteq. intros i.
  rewrite !elem_of_get_all_assets_flat, !elem_of_direct_asset_ids.
  unfold nodes_keys. rewrite Hn. intros [[Hi Hrow]|Hi]; auto.
Qed.

Lemma get_all_assets_mono_witness :
  let g := sample_grant [] [] [100%N] [] [] true in
  let g' := sample_grant [] [] [101%N; 100%N] [] [] true in
  assets g ⊆ assets g' ∧ nodes g' = nodes g
  ∧ (get_all_assets Sample.store g true : gset N)
      ⊆ get_all_assets Sample.store g' true.
Proof.
  intros g g'.
  assert (Ha : assets g ⊆ assets g').
  { intros x Hx. apply list_elem_of_singleton in Hx as ->. simpl. in_rows. }
  split; [exact Ha|]. split; [reflexivity|].
  exact (get_all_assets_mono Sample.store g g' Ha eq_refl).
Defined.

(** X22: account resolution reads the asset references, the node references
    and the account list of the grant and nothing else: in particular a
    deactivated or expired grant resolves to the same accounts. *)
Theorem get_all_accounts_ignores_validity
    (db : Store) (g g' : AssetPermission.t) (flat : bool) :
  assets g' = assets g → nodes g' = nodes g → accounts g' = accounts g →
  get_all_accounts db g' flat = get_all_accounts db g flat.
Proof.
  intros Ha Hn Hspec.
  assert (Hassets : (get_all_assets db g' true : gset N) = get_all_assets db g true).
  { rewrite !get_all_assets_flat. unfold direct_asset_ids, nodes_keys.
    by rewrite Ha, Hn. }
  assert (Hrows : (get_all_accounts db g' false : list Account.t)
                  = get_all_accounts db g false).
  { rewrite !get_all_accounts_rows. do 3 f_equal. apply list_filter_iff.
    intros a. unfold account_matches, is_wildcard. by rewrite Hassets, Hspec. }
  destruct flat; [|done]. by rewrite !get_all_accounts_ids, Hrows.
Qed.

Lemma get_all_accounts_ignores_validity_witness :
  let g := Sample.permission 1 ["root"] 0 10 true in
  let g' := Sample.permission 1 ["root"] 20 30 false in
  assets g' = assets g ∧ nodes g' = nodes g ∧ accounts g' = accounts g
  ∧ (get_all_accounts Sample.store g' true : list N)
    = get_all_accounts Sample.store g true.
Proof.
  intros g g'. split; [reflexivity|]. split; [reflexivity|].
  split; [reflexivity|].
  exact (get_all_accounts_ignores_validity Sample.store g g' true
           eq_refl eq_refl eq_refl).
Defined.

(** X23: a wider grant resolves to more accounts: when the asset set of [g]
    is within that of [g'], and [g'] holds the wildcard or lists every name
    [g] lists, every account resolved for [g] is resolved for [g']. *)
Theorem get_all_accounts_mono (db : Store) (g g' : AssetPermission.t) :
  (get_all_assets db g true : gset N) ⊆ get_all_assets db g' true →
  is_wildcard g' ∨ accounts g ⊆ accounts g' →
  (get_all_accounts db g false : list Account.t) ⊆ get_all_accounts db g' false.
Proof.
  intros Hassets Hspec a.
  rewrite !elem_of_get_all_accounts. unfold account_matches, is_wildcard.
  intros (Hrow & [Hin Hname] & Hasset). split; [done|]. split; [|done]. split.
  - by apply (proj1 (elem_of_subseteq _ _) Hassets).
  - destruct Hspec as [Hw|Hsub]; [by left|].
    destruct Hname as [Hw|Hname]; [left|right]; by apply Hsub.
Qed.

Lemma get_all_accounts_mono_witness :
  let g := Sample.permission 1 ["root"] 0 10 true in
  let g' := Sample.permission 2 ["guest"; "@ALL"] 0 10 true in
  (get_all_assets Sample.store g true : gset N) ⊆ get_all_assets Sample.store g' true
  ∧ (is_wildcard g' ∨ accounts g ⊆ accounts g')
  ∧ (get_all_accounts Sample.store g false : list Account.t)
      ⊆ get_all_accounts Sample.store g' false.
Proof.
  intros g g'.
  assert (Hassets : (get_all_assets Sample.store g true : gset N)
                    ⊆ get_all_assets Sample.store g' true) by done.
  assert (Hspec : is_wildcard g' ∨ accounts g ⊆ accounts g').
  { left. unfold is_wildcard. simpl. in_rows. }
  split; [exact Hassets|]. split; [exact Hspec|].
  exact (get_all_accounts_mono Sample.store g g' Hassets Hspec).
Defined.

(** ** Accounts and the asset table *)

(** X24: an account whose asset has no row in the asset table is never
    returned, whatever the grant: ordering by the asset name joins the asset
    table.  This holds also when the identity of the missing asset is in the
    flat asset set and the grant holds the wildcard. *)
Theorem get_all_accounts_needs_asset_row
    (db : Store) (g : AssetPermission.t) (a : Account.t) :
  Account.asset_id a ∉ Asset.id <$> Asset_objects db →
  a ∉ (get_all_accounts db g false : list Account.t).
Proof. intros Hrow. rewrite elem_of_get_all_accounts. tauto. Qed.

Lemma get_all_accounts_needs_asset_row_witness :
  let g := Sample.permission 1 ["@ALL"] 0 10 true in
  let a := {| Account.id := 1009; Account.asset_id := 555; Account.name := "o";
              Account.username := "root" |} in
  (Account.asset_id a ∉ Asset.id <$> Asset_objects orphan_store)
  ∧ a ∈ Account_objects orphan_store
  ∧ Account.asset_id a ∈ (get_all_assets orphan_store g true : gset N)
  ∧ (a ∉ (get_all_accounts orphan_store g false : list Account.t)).
Proof.
  intros g a.
  assert (Hrow : Account.asset_id a ∉ Asset.id <$> Asset_objects orphan_store).
  { compute_done. }
  split; [exact Hrow|]. split; [apply list_elem_of_here|].
  split; [compute_done|].
  exact (get_all_accounts_needs_asset_row orphan_store g a Hrow).
Defined.

Example scenario_orphan_account :
  get_all_accounts orphan_store (Sample.permission 1 ["@ALL"] 0 10 true) true
  = [1002%N; 1001%N; 1003%N; 1000%N].
Proof. vm_compute. reflexivity. Qed.
